(** * go-dockerclient, misc.go: [Exec] and [ParseRepositoryTag]

    A shallow embedding of the two non-trivial functions of [misc.go]:

    - [ParseRepositoryTag], a pure function on Go strings (byte sequences);
    - [Client.Exec], the coordinator of an exec session.  It talks to the
      request dispatcher [c.do], decodes the creation response, starts the
      relay goroutine through [promise.Go] and then synchronises with it on
      two channels, [hijacked] (unbuffered) and [errCh] (capacity one).

    The sequential prefix of [Exec] is a function; the concurrent part is a
    small-step semantics whose successor function enumerates every
    interleaving of the coordinator and the relay goroutine. *)

From Stdlib Require Import String Ascii List ZArith NArith Bool Lia Arith.
Import ListNotations.
Local Open Scope string_scope.
Local Open Scope list_scope.

(** ** Go's [strings] package, as far as [misc.go] uses it *)

Module strings.

(** A Go string is a sequence of bytes; [len] counts bytes. *)
Definition len (s : string) : Z := Z.of_nat (String.length s).

(** [strings.HasPrefix]. *)
Fixpoint HasPrefix (s prefix : string) {struct prefix} : bool :=
  match prefix, s with
  | EmptyString, _ => true
  | String _ _, EmptyString => false
  | String p prefix', String a s' =>
      if Ascii.eqb a p then HasPrefix s' prefix' else false
  end.

(** [strings.Index]: offset of the first occurrence of [sep], or -1. *)
Fixpoint Index (s sep : string) : Z :=
  if HasPrefix s sep then 0%Z
  else match s with
       | EmptyString => (-1)%Z
       | String _ s' =>
           let r := Index s' sep in
           if (0 <=? r)%Z then (r + 1)%Z else (-1)%Z
       end.

(** [strings.LastIndex]: offset of the last occurrence of [sep], or -1. *)
Fixpoint LastIndex (s sep : string) : Z :=
  match s with
  | EmptyString => if HasPrefix s sep then 0%Z else (-1)%Z
  | String _ s' =>
      let r := LastIndex s' sep in
      if (0 <=? r)%Z then (r + 1)%Z
      else if HasPrefix s sep then 0%Z else (-1)%Z
  end.

(** [strings.Contains]. *)
Definition Contains (s substr : string) : bool := (0 <=? Index s substr)%Z.

(** The slice expression [s[lo:hi]].  Go panics unless
    [0 <= lo <= hi <= len(s)]; the panic is [None]. *)
Definition slice (s : string) (lo hi : Z) : option string :=
  if ((0 <=? lo) && (lo <=? hi) && (hi <=? len s))%Z%bool
  then Some (String.substring (Z.to_nat lo) (Z.to_nat (hi - lo)) s)
  else None.

(** [s[lo:]] and [s[:hi]]. *)
Definition slice_from (s : string) (lo : Z) : option string := slice s lo (len s).
Definition slice_to (s : string) (hi : Z) : option string := slice s 0 hi.

End strings.

(** ** [ParseRepositoryTag] (misc.go, lines 149-158) *)

(** The two results are returned as a pair; [None] stands for a run-time
    panic of one of the two slice expressions. *)
Definition ParseRepositoryTag (repoTag : string) : option (string * string) :=
  let n := strings.LastIndex repoTag ":" in
  if (n <? 0)%Z then Some (repoTag, "")
  else
    match strings.slice_from repoTag (n + 1) with
    | None => None
    | Some tag =>
        if negb (strings.Contains tag "/") then
          match strings.slice_to repoTag n with
          | None => None
          | Some repository => Some (repository, tag)
          end
        else Some (repoTag, "")
    end.

(** ** The data of an exec session *)

(** What an [*os.File] refers to.  Only a character device can be a
    terminal; [Exec] never looks at this. *)
Inductive file_kind := CharDevice | RegularFile | Pipe.

(** [*os.File]: the descriptor returned by [Fd()] and the kind of file. *)
Record os_File := { Fd : N; kind : file_kind }.

(** An [io.Reader] or [io.Writer] interface value, by dynamic type. *)
Inductive stream :=
| nil_stream
| os_file (f : os_File)
| other_stream (id : nat).

(** [ExecOptions] (lines 53-65). *)
Record ExecOptions := {
  User : string;
  Privileged : bool;
  AttachStdin : bool;
  AttachStdout : bool;
  AttachStderr : bool;
  Tty : bool;
  Command : list string;
  Container : string;
  OutputStream : stream;
  ErrorStream : stream;
  InputStream : stream
}.

(** Non-nil values of Go's [error] interface.  [NoSuchContainer] and
    [errorString] are the two values [Exec] builds itself (lines 69 and
    84); [foreign] is an error made outside misc.go, known by its text.
    The nil error is [None] of [option error]. *)
Inductive error :=
| NoSuchContainer (ID : string)
| errorString (msg : string)
| foreign (msg : string).

(** A non-nil [io.Closer]: the hijacked connection, known by identity. *)
Definition Closer := nat.

(** What [hijack2] does with its [started] channel, in program order. *)
Inductive chan_op :=
| Send (closer : option Closer)
| Close.

(** One activation of [hijack2], seen from [Exec]: its operations on the
    [started] channel and the error it returns. *)
Record hijack_run := { started_ops : list chan_op; hijack_err : option error }.

(** Everything [Exec] calls that lives outside misc.go.  [do] returns
    (body, status, err).  [json_Unmarshal] decodes a body into the local
    [struct{ Id string }], whose [Id] starts as the empty string, and
    returns the resulting [Id] with the decoding error.  [hijack2] takes the
    arguments of line 103 but the channel, on which it acts as its
    [hijack_run] says. *)
Record Client := {
  do : string -> string -> ExecOptions -> string * Z * option error;
  json_Unmarshal : string -> string * option error;
  hijack2 : string -> string -> bool -> stream -> stream -> stream ->
            ExecOptions -> hijack_run;
  monitorTtySize : string -> bool -> bool -> N -> option error
}.

(** Calls made to the collaborators, with their arguments. *)
Inductive call :=
| CallDo (method path : string) (data : ExecOptions)
| CallHijack2 (method path : string) (setRawTerminal : bool)
              (in_ stdout stderr : stream) (data : ExecOptions)
| CallMonitorTtySize (id : string) (isTerminalIn isTerminalOut : bool) (outFd : N).

(** ** The sequential prefix of [Exec] (lines 68-85) *)

Definition missing_operation_id : error :=
  errorString "Couldn't get an operation id for the exec command".

(** The calls made, and either the error returned or the exec id. *)
Definition Exec_create (c : Client) (opts : ExecOptions)
  : list call * (error + string) :=
  if (Container opts =? "")%string
  then ([], inl (NoSuchContainer (Container opts)))
  else
    let name := Container opts in
    let path := ("/containers/" ++ name ++ "/exec")%string in
    let '(body, _, err) := do c "POST" path opts in
    let calls := [CallDo "POST" path opts] in
    match err with
    | Some e => (calls, inl e)
    | None =>
        let '(Id, err) := json_Unmarshal c body in
        match err with
        | Some e => (calls, inl e)
        | None =>
            if (Id =? "")%string then (calls, inl missing_operation_id)
            else (calls, inr Id)
        end
    end.

(** ** The concurrent part of [Exec] (lines 86-139) *)

(** The unbuffered channel [hijacked]: only open or closed matters, a value
    passes from sender to receiver in one joint step. *)
Inductive chan_state := ChanOpen | ChanClosed.

(** Where the coordinator (the goroutine running [Exec]) stands.
    [deferred] is the closer whose [Close] was deferred at line 109. *)
Inductive coord_pc :=
| AtSelect
| AtMonitor (deferred : option Closer)
| AtFinalRecv (deferred : option Closer)
| Returning (ret : option error) (deferred : option Closer)
| AtDrain (ret : option error)
| Returned (ret : option error).

(** Where the goroutine started by [promise.Go] stands.  [promise.Go]
    (docker/pkg/promise) makes a channel of capacity one, starts a goroutine
    that calls the function and sends its result on the channel, and
    returns the channel: [errCh] receives one value, when [hijack2] has
    returned. *)
Inductive relay_pc :=
| NoRelay
| Spawned
| InHijack (ops : list chan_op) (ret : option error)
| Finished
| Panicked.

(** A state of the call.  Beside the two program points, the local [id.Id]
    and the two channels, it records what the call has done so far: the
    calls to collaborators, the lines printed, the connections on which
    [Exec] called [Close], the values the select received from [hijacked],
    and the values [Exec] received from [errCh]. *)
Record state := {
  coord : coord_pc;
  relay : relay_pc;
  exec_id : string;
  hijacked : chan_state;
  errCh : option (option error);
  calls : list call;
  stdout : list string;
  closed : list Closer;
  ready_seen : list (option Closer);
  completion_seen : list (option error)
}.

(** The text of an error, as [%s] prints it.  The method of
    [NoSuchContainer] is defined outside misc.go; its text plays no role in
    what follows. *)
Definition Error (e : error) : string :=
  match e with
  | NoSuchContainer ID => ("No such container: " ++ ID)%string
  | errorString msg => msg
  | foreign msg => msg
  end.

Definition newline : string := String (ascii_of_nat 10) EmptyString.

(** Lines 122-128: the two type assertions. *)
Definition isTerminalIn (opts : ExecOptions) : bool :=
  match InputStream opts with os_file _ => true | _ => false end.

Definition isTerminalOut (opts : ExecOptions) : bool :=
  match OutputStream opts with os_file _ => true | _ => false end.

Definition outFd (opts : ExecOptions) : N :=
  match OutputStream opts with os_file file => Fd file | _ => 0%N end.

(** Lines 130-134: the calls made and the lines printed. *)
Definition monitor_calls (opts : ExecOptions) (id : string) : list call :=
  if Tty opts && isTerminalIn opts
  then [CallMonitorTtySize id true (isTerminalOut opts) (outFd opts)]
  else [].

Definition monitor_output (c : Client) (opts : ExecOptions) (id : string)
  : list string :=
  if Tty opts && isTerminalIn opts
  then match monitorTtySize c id true (isTerminalOut opts) (outFd opts) with
       | Some err => [("Error monitoring TTY size: " ++ Error err ++ newline)%string]
       | None => []
       end
  else [].

(** Lines 97-103: the closure handed to [promise.Go]. *)
Definition doPath (id : string) : string := ("/exec/" ++ id ++ "/start")%string.

Definition relay_stderr (opts : ExecOptions) : stream :=
  if Tty opts then OutputStream opts else ErrorStream opts.

Definition relay_call (opts : ExecOptions) (id : string) : call :=
  CallHijack2 "POST" (doPath id) (Tty opts) (InputStream opts)
              (OutputStream opts) (relay_stderr opts) opts.

Definition relay_run (c : Client) (opts : ExecOptions) (id : string) : hijack_run :=
  hijack2 c "POST" (doPath id) (Tty opts) (InputStream opts)
          (OutputStream opts) (relay_stderr opts) opts.

Definition set_coord (s : state) (pc : coord_pc) : state :=
  {| coord := pc; relay := relay s; exec_id := exec_id s;
     hijacked := hijacked s; errCh := errCh s; calls := calls s;
     stdout := stdout s; closed := closed s; ready_seen := ready_seen s;
     completion_seen := completion_seen s |}.

Definition set_relay (s : state) (pc : relay_pc) : state :=
  {| coord := coord s; relay := pc; exec_id := exec_id s;
     hijacked := hijacked s; errCh := errCh s; calls := calls s;
     stdout := stdout s; closed := closed s; ready_seen := ready_seen s;
     completion_seen := completion_seen s |}.

(** The select at line 106 takes the [hijacked] case with value [v]. *)
Definition select_ready (s : state) (v : option Closer) : state :=
  {| coord := AtMonitor v; relay := relay s; exec_id := exec_id s;
     hijacked := hijacked s; errCh := errCh s; calls := calls s;
     stdout := stdout s; closed := closed s;
     ready_seen := ready_seen s ++ [v];
     completion_seen := completion_seen s |}.

(** A receive from [errCh] that yields [v] and moves on to [pc]. *)
Definition recv_errCh (s : state) (v : option error) (pc : coord_pc) : state :=
  {| coord := pc; relay := relay s; exec_id := exec_id s;
     hijacked := hijacked s; errCh := None; calls := calls s;
     stdout := stdout s; closed := closed s; ready_seen := ready_seen s;
     completion_seen := completion_seen s ++ [v] |}.

(** Steps the coordinator takes on its own.
    - [AtSelect], lines 106-115: a closed [hijacked] yields the nil closer,
      for which nothing is deferred; a value in [errCh] is returned if it is
      an error and otherwise lets the call go on.  When both cases are
      ready either may be taken.
    - [AtMonitor], lines 117-134.
    - [AtFinalRecv], lines 136-139: both branches return the value received.
    - [Returning]: the deferred calls run last-in first-out, so
      [closer.Close()] of line 109 comes first.
    - [AtDrain], lines 91-95: the receive ends when [hijacked] is closed. *)
Definition coord_steps (c : Client) (opts : ExecOptions) (s : state) : list state :=
  match coord s with
  | AtSelect =>
      (match hijacked s with
       | ChanClosed => [select_ready s None]
       | ChanOpen => []
       end)
      ++
      (match errCh s with
       | Some (Some err) => [recv_errCh s (Some err) (Returning (Some err) None)]
       | Some None => [recv_errCh s None (AtMonitor None)]
       | None => []
       end)
  | AtMonitor d =>
      [ {| coord := AtFinalRecv d; relay := relay s; exec_id := exec_id s;
           hijacked := hijacked s; errCh := errCh s;
           calls := calls s ++ monitor_calls opts (exec_id s);
           stdout := stdout s ++ monitor_output c opts (exec_id s);
           closed := closed s; ready_seen := ready_seen s;
           completion_seen := completion_seen s |} ]
  | AtFinalRecv d =>
      match errCh s with
      | Some v => [recv_errCh s v (Returning v d)]
      | None => []
      end
  | Returning ret d =>
      [ {| coord := AtDrain ret; relay := relay s; exec_id := exec_id s;
           hijacked := hijacked s; errCh := errCh s; calls := calls s;
           stdout := stdout s;
           closed := closed s ++ match d with Some cl => [cl] | None => [] end;
           ready_seen := ready_seen s;
           completion_seen := completion_seen s |} ]
  | AtDrain ret =>
      match hijacked s with
      | ChanClosed => [set_coord s (Returned ret)]
      | ChanOpen => []
      end
  | Returned _ => []
  end.

(** Steps the relay goroutine takes on its own: it enters [hijack2] (lines
    98-104); inside, a close of the open channel succeeds, while a close of
    or a send on the closed channel panics; when [hijack2] has returned,
    [promise.Go] puts its result into [errCh]. *)
Definition relay_steps (c : Client) (opts : ExecOptions) (s : state) : list state :=
  match relay s with
  | Spawned =>
      let r := relay_run c opts (exec_id s) in
      [ {| coord := coord s;
           relay := InHijack (started_ops r) (hijack_err r);
           exec_id := exec_id s; hijacked := hijacked s; errCh := errCh s;
           calls := calls s ++ [relay_call opts (exec_id s)];
           stdout := stdout s; closed := closed s; ready_seen := ready_seen s;
           completion_seen := completion_seen s |} ]
  | InHijack (Send _ :: _) _ =>
      match hijacked s with
      | ChanClosed => [set_relay s Panicked]
      | ChanOpen => []
      end
  | InHijack (Close :: ops) ret =>
      match hijacked s with
      | ChanClosed => [set_relay s Panicked]
      | ChanOpen =>
          [ {| coord := coord s; relay := InHijack ops ret;
               exec_id := exec_id s; hijacked := ChanClosed; errCh := errCh s;
               calls := calls s; stdout := stdout s; closed := closed s;
               ready_seen := ready_seen s;
               completion_seen := completion_seen s |} ]
      end
  | InHijack [] ret =>
      match errCh s with
      | None =>
          [ {| coord := coord s; relay := Finished; exec_id := exec_id s;
               hijacked := hijacked s; errCh := Some ret; calls := calls s;
               stdout := stdout s; closed := closed s;
               ready_seen := ready_seen s;
               completion_seen := completion_seen s |} ]
      | Some _ => []
      end
  | NoRelay | Finished | Panicked => []
  end.

(** A send on the open channel [hijacked] meets a receive of the
    coordinator: at the select, or in the deferred function of line 91. *)
Definition rendezvous_steps (s : state) : list state :=
  match relay s, hijacked s with
  | InHijack (Send v :: ops) ret, ChanOpen =>
      match coord s with
      | AtSelect => [set_relay (select_ready s v) (InHijack ops ret)]
      | AtDrain r =>
          [ {| coord := Returned r; relay := InHijack ops ret;
               exec_id := exec_id s; hijacked := hijacked s; errCh := errCh s;
               calls := calls s;
               stdout := stdout s ++ [("Hijack did not finish (chan still open)" ++ newline)%string];
               closed := closed s; ready_seen := ready_seen s;
               completion_seen := completion_seen s |} ]
      | _ => []
      end
  | _, _ => []
  end.

(** Every state one scheduling decision away.  A panic of the relay
    goroutine stops the whole process. *)
Definition successors (c : Client) (opts : ExecOptions) (s : state) : list state :=
  match relay s with
  | Panicked => []
  | _ => coord_steps c opts s ++ rendezvous_steps s ++ relay_steps c opts s
  end.

(** The state in which the prefix leaves the call. *)
Definition Exec_start (c : Client) (opts : ExecOptions) : state :=
  match Exec_create c opts with
  | (cs, inl e) =>
      {| coord := Returned (Some e); relay := NoRelay; exec_id := "";
         hijacked := ChanOpen; errCh := None; calls := cs; stdout := [];
         closed := []; ready_seen := []; completion_seen := [] |}
  | (cs, inr id) =>
      {| coord := AtSelect; relay := Spawned; exec_id := id;
         hijacked := ChanOpen; errCh := None; calls := cs; stdout := [];
         closed := []; ready_seen := []; completion_seen := [] |}
  end.

Definition step (c : Client) (opts : ExecOptions) (s s' : state) : Prop :=
  In s' (successors c opts s).

(** [steps c opts n s s']: some interleaving leads from [s] to [s'] in [n] steps. *)
Inductive steps (c : Client) (opts : ExecOptions) : nat -> state -> state -> Prop :=
| steps_refl s : steps c opts 0 s s
| steps_next n s s' s'' :
    step c opts s s' -> steps c opts n s' s'' -> steps c opts (S n) s s''.

(** A state of a session: reachable from the start of [Exec]. *)
Definition session (c : Client) (opts : ExecOptions) (s : state) : Prop :=
  exists n, steps c opts n (Exec_start c opts) s.

(** No scheduling decision is left: [Exec] has returned and the relay is
    done, or the process is stuck. *)
Definition final (c : Client) (opts : ExecOptions) (s : state) : Prop :=
  successors c opts s = [].

(** The value [Exec] has returned, if it has. *)
Definition result (s : state) : option (option error) :=
  match coord s with Returned ret => Some ret | _ => None end.

(** All states within [n] steps. *)
Fixpoint reach (c : Client) (opts : ExecOptions) (n : nat) (s : state) : list state :=
  s :: match n with
       | O => []
       | S n' => flat_map (reach c opts n') (successors c opts s)
       end.

(** A bound on the number of steps left. *)
Definition coord_weight (pc : coord_pc) : nat :=
  match pc with
  | AtSelect => 5
  | AtMonitor _ => 4
  | AtFinalRecv _ => 3
  | Returning _ _ => 2
  | AtDrain _ => 1
  | Returned _ => 0
  end.

Definition relay_weight (c : Client) (opts : ExecOptions) (s : state) : nat :=
  match relay s with
  | Spawned => List.length (started_ops (relay_run c opts (exec_id s))) + 2
  | InHijack ops _ => List.length ops + 1
  | NoRelay | Finished | Panicked => 0
  end.

Definition weight (c : Client) (opts : ExecOptions) (s : state) : nat :=
  coord_weight (coord s) + relay_weight c opts s.

(** The end states of all maximal runs of [Exec]. *)
Definition Exec_outcomes (c : Client) (opts : ExecOptions) : list state :=
  let s0 := Exec_start c opts in
  filter (fun s => match successors c opts s with [] => true | _ => false end)
         (reach c opts (weight c opts s0) s0).

(** [Exec] (lines 67-140), as the set of its possible results: one entry
    for each maximal run, [Some err] when the call returns [err] and [None]
    when it blocks for ever. *)
Definition Exec (c : Client) (opts : ExecOptions) : list (option (option error)) :=
  map result (Exec_outcomes c opts).

(** Modelled from the spec: [hijack2], which is not part of misc.go.  The
    spec (4.2) has two cases.  When the upgrade fails the relay reports the
    failure and leaves the connection-ready channel resolved; when it
    succeeds it sends the acquired connection on the ready channel, copies,
    and reports the result of copying.  The channel is resolved by closing
    it, which is what the deferred receive of line 92 waits for. *)
Inductive upgrade :=
| UpgradeFails (e : error)
| UpgradeSucceeds (conn : Closer) (copy_err : option error).

Definition spec_hijack2 (u : upgrade) : hijack_run :=
  match u with
  | UpgradeFails e => {| started_ops := [Close]; hijack_err := Some e |}
  | UpgradeSucceeds conn r =>
      {| started_ops := [Send (Some conn); Close]; hijack_err := r |}
  end.

Definition upgrade_result (u : upgrade) : option error :=
  hijack_err (spec_hijack2 u).

Definition upgrade_conn (u : upgrade) : list Closer :=
  match u with UpgradeFails _ => [] | UpgradeSucceeds conn _ => [conn] end.

(** ** Vocabulary of the statements *)

(** The byte [a] occurs in [s]. *)
Fixpoint occurs (a : ascii) (s : string) : bool :=
  match s with
  | EmptyString => false
  | String b s' => Ascii.eqb b a || occurs a s'
  end.


(** The round trip in its strict form: an empty tag means that the
    repository is the whole input. *)
Definition strict_round_trip (s : string) : Prop :=
  forall repository tag,
    ParseRepositoryTag s = Some (repository, tag) ->
    (tag <> "" -> (repository ++ ":" ++ tag)%string = s) /\
    (tag = "" -> repository = s) /\
    occurs "/"%char tag = false.

(** The first call of a session whose container name is not empty. *)
Definition create_call (opts : ExecOptions) : call :=
  CallDo "POST" ("/containers/" ++ Container opts ++ "/exec")%string opts.

Definition relay_started (pc : relay_pc) : bool :=
  match pc with NoRelay | Spawned => false | _ => true end.

(** The coordinator has gone through lines 117-134.  A return reached
    without a value from [hijacked] is the early return of line 113, which
    skips them. *)
Definition monitor_done (s : state) : bool :=
  match coord s with
  | AtSelect | AtMonitor _ => false
  | AtFinalRecv _ => true
  | Returning _ _ | AtDrain _ | Returned _ =>
      match ready_seen s with [] => false | _ :: _ => true end
  end.

Definition opt_list {A : Type} (o : option A) : list A :=
  match o with Some x => [x] | None => [] end.

(** The connections [Exec] took ownership of: the non-nil closers that the
    select received on [hijacked]. *)
Definition owned (s : state) : list Closer := flat_map opt_list (ready_seen s).



Definition is_CallMonitorTtySize (k : call) : bool :=
  match k with CallMonitorTtySize _ _ _ _ => true | _ => false end.


(** The dynamic type of the stream is [*os.File]. *)
Definition is_os_File (st : stream) : bool :=
  match st with os_file _ => true | _ => false end.

(** What holds of every state of a session that created the exec instance
    [id], whatever [hijack2] does. *)
Record session_inv (c : Client) (opts : ExecOptions) (id : string) (s : state)
  : Prop := {
  inv_id : exec_id s = id;
  inv_calls :
    calls s = create_call opts
              :: (if relay_started (relay s) then [relay_call opts id] else [])
              ++ (if monitor_done s then monitor_calls opts id else []);
  inv_stdout :
    stdout s = if monitor_done s then monitor_output c opts id else [];
  inv_relay :
    match relay s with
    | NoRelay => False
    | Spawned => coord s = AtSelect /\ hijacked s = ChanOpen /\ errCh s = None
                 /\ completion_seen s = []
    | InHijack _ ret => ret = hijack_err (relay_run c opts id)
                        /\ errCh s = None /\ completion_seen s = []
    | Finished =>
        (errCh s = Some (hijack_err (relay_run c opts id))
         /\ completion_seen s = [])
        \/ (errCh s = None
            /\ completion_seen s = [hijack_err (relay_run c opts id)])
    | Panicked => errCh s = None /\ completion_seen s = []
    end;
  inv_coord :
    match coord s with
    | AtSelect => ready_seen s = [] /\ completion_seen s = [] /\ closed s = []
    | AtMonitor d | AtFinalRecv d =>
        closed s = []
        /\ ((ready_seen s = [d] /\ completion_seen s = [])
            \/ (ready_seen s = [] /\ d = None /\ completion_seen s = [None]))
    | Returning ret d =>
        closed s = [] /\ completion_seen s = [ret]
        /\ (ready_seen s = [d]
            \/ (ready_seen s = [] /\ d = None /\ ret <> None))
    | AtDrain ret | Returned ret =>
        closed s = owned s /\ completion_seen s = [ret]
        /\ ((exists v, ready_seen s = [v])
            \/ (ready_seen s = [] /\ ret <> None))
    end
}.

(** The prefix created the exec instance [id]. *)
Definition created (c : Client) (opts : ExecOptions) (id : string) : Prop :=
  snd (Exec_create c opts) = inr id.

(** The monitor was started in the session (so far). *)
Definition monitor_started (s : state) : Prop :=
  exists k, In k (calls s) /\ is_CallMonitorTtySize k = true.


Definition monitor_in_every_session (c : Client) (opts : ExecOptions) : Prop :=
  forall s ret, session c opts s -> result s = Some ret ->
    (monitor_started s <->
     Tty opts = true /\ is_os_File (InputStream opts) = true).

(** ** Sample sessions *)

Definition sample_opts (tty : bool) (input output : stream) : ExecOptions :=
  {| User := "root"; Privileged := false; AttachStdin := true;
     AttachStdout := true; AttachStderr := true; Tty := tty;
     Command := ["sh"]; Container := "web";
     OutputStream := output; ErrorStream := other_stream 2;
     InputStream := input |}.

(** A client whose dispatcher answers every request with [created_body],
    whose decoder takes the body itself for the identifier, whose
    [hijack2] behaves as [run] and whose size monitor returns [mon]. *)
Definition sample_client (created_body : string * Z * option error)
           (run : hijack_run) (mon : option error) : Client :=
  {| do := fun _ _ _ => created_body;
     json_Unmarshal := fun body => (body, None);
     hijack2 := fun _ _ _ _ _ _ _ => run;
     monitorTtySize := fun _ _ _ _ => mon |}.

Definition regular_file : stream := os_file {| Fd := 3%N; kind := RegularFile |}.
Definition terminal : stream := os_file {| Fd := 1%N; kind := CharDevice |}.

(** The upgrade succeeds with connection 7 and copying ends without
    error; the size monitor fails. *)
Definition good_client : Client :=
  sample_client ("exec-1", 201%Z, None)
                (spec_hijack2 (UpgradeSucceeds 7 None))
                (Some (foreign "resize failed")).

(** The upgrade fails. *)
Definition refused_client : Client :=
  sample_client ("exec-1", 201%Z, None)
                (spec_hijack2 (UpgradeFails (foreign "connection refused")))
                None.

(** A relay outside the specification: it returns nil without ever
    handing over a connection. *)
Definition silent_client : Client :=
  sample_client ("exec-1", 201%Z, None)
                {| started_ops := [Close]; hijack_err := None |} None.

Definition file_opts : ExecOptions := sample_opts true regular_file terminal.

Definition first_outcome (c : Client) (opts : ExecOptions) : state :=
  hd (Exec_start c opts) (Exec_outcomes c opts).

Definition last_outcome (c : Client) (opts : ExecOptions) : state :=
  last (Exec_outcomes c opts) (Exec_start c opts).

(** ** [Version] and [Info] (lines 21-47) *)

(** Both functions call [c.do] with a nil body and decode the answer into
    a fresh [Env].  [Env] and its [Decode] live outside misc.go: the type
    is a parameter, and [Decode] maps the body to the decoded [Env] and the
    decoding error.  A call returns the pointer (nil is [None]) and the
    error.  The requests made are logged as method and path. *)
Section Queries.

Variable Env : Type.
Variable do_nil : string -> string -> string * Z * option error.
Variable Decode : string -> Env * option error.



End Queries.

(** ** Vocabulary of the further properties *)






(** A decoder that rejects every body. *)
Definition undecodable_client : Client :=
  {| do := fun _ _ _ => ("<html>", 200%Z, None);
     json_Unmarshal := fun _ => ("", Some (foreign "invalid character"));
     hijack2 := fun _ _ _ _ _ _ _ => spec_hijack2 (UpgradeSucceeds 7 None);
     monitorTtySize := fun _ _ _ _ => None |}.

(** * Theorems *)

(** ** Go strings *)

Section StringFacts.

Variable a : ascii.
Let sep : string := String a EmptyString.

Lemma HasPrefix_byte (s : string) :
  strings.HasPrefix s sep =
  match s with String b _ => Ascii.eqb b a | EmptyString => false end.
Proof.
  destruct s as [|b s']; simpl; [reflexivity|].
  destruct (Ascii.eqb b a); reflexivity.
Qed.

Lemma LastIndex_absent (s : string) :
  occurs a s = false -> strings.LastIndex s sep = (-1)%Z.
Proof.
  induction s as [|b s' IH]; intros Hocc.
  - reflexivity.
  - simpl in Hocc. apply orb_false_iff in Hocc as [Hb Hs'].
    cbn [strings.LastIndex]. rewrite (IH Hs'). simpl.
    rewrite Hb. reflexivity.
Qed.

Lemma LastIndex_last (r t : string) :
  occurs a t = false ->
  strings.LastIndex (r ++ String a t) sep = strings.len r.
Proof.
  intros Ht. induction r as [|b r' IH].
  - cbn [String.append strings.LastIndex]. rewrite (LastIndex_absent t Ht).
    simpl. rewrite Ascii.eqb_refl. reflexivity.
  - cbn [String.append strings.LastIndex]. rewrite IH.
    unfold strings.len. simpl String.length.
    destruct (0 <=? Z.of_nat (String.length r'))%Z eqn:E; [lia|].
    apply Z.leb_gt in E. lia.
Qed.

Lemma Index_absent (s : string) :
  occurs a s = false -> strings.Index s sep = (-1)%Z.
Proof.
  induction s as [|b s' IH]; intros Hocc.
  - reflexivity.
  - simpl in Hocc. apply orb_false_iff in Hocc as [Hb Hs'].
    cbn [strings.Index]. rewrite HasPrefix_byte, Hb, (IH Hs'). reflexivity.
Qed.

Lemma Index_nonneg (s : string) :
  occurs a s = true -> (0 <= strings.Index s sep)%Z.
Proof.
  induction s as [|b s' IH]; intros Hocc.
  - discriminate.
  - cbn [strings.Index]. rewrite HasPrefix_byte.
    destruct (Ascii.eqb b a) eqn:Hb; [lia|].
    simpl in Hocc. rewrite Hb in Hocc. simpl in Hocc.
    specialize (IH Hocc).
    destruct (0 <=? strings.Index s' sep)%Z eqn:E; [lia|].
    apply Z.leb_gt in E. lia.
Qed.

Lemma Contains_occurs (s : string) :
  strings.Contains s sep = occurs a s.
Proof.
  unfold strings.Contains. destruct (occurs a s) eqn:Hocc.
  - apply Z.leb_le. now apply Index_nonneg.
  - now rewrite Index_absent.
Qed.

(** Every string either lacks [a] or splits at its last [a]. *)
Lemma last_occurrence (s : string) :
  occurs a s = false \/
  exists r t, s = (r ++ String a t)%string /\ occurs a t = false.
Proof.
  induction s as [|b s' IH].
  - now left.
  - destruct IH as [Hno | (r & t & -> & Ht)].
    + destruct (Ascii.eqb b a) eqn:Hb.
      * right. exists EmptyString, s'. apply Ascii.eqb_eq in Hb. subst b.
        split; [reflexivity | assumption].
      * left. simpl. now rewrite Hb.
    + right. exists (String b r), t. split; [reflexivity | assumption].
Qed.

End StringFacts.

Lemma substring_all (s : string) :
  String.substring 0 (String.length s) s = s.
Proof. induction s as [|b s' IH]; simpl; [reflexivity | now rewrite IH]. Qed.

Lemma substring_head (r t : string) :
  String.substring 0 (String.length r) (r ++ t) = r.
Proof.
  induction r as [|b r' IH]; simpl.
  - destruct t; reflexivity.
  - now rewrite IH.
Qed.

Lemma substring_tail (r t : string) :
  String.substring (String.length r) (String.length t) (r ++ t) = t.
Proof.
  induction r as [|b r' IH]; simpl.
  - apply substring_all.
  - exact IH.
Qed.

Lemma length_append (r t : string) :
  String.length (r ++ t) = String.length r + String.length t.
Proof. induction r as [|b r' IH]; simpl; [reflexivity | now rewrite IH]. Qed.

Lemma slice_to_split (r t : string) :
  strings.slice_to (r ++ t) (strings.len r) = Some r.
Proof.
  unfold strings.slice_to, strings.slice, strings.len.
  rewrite length_append.
  replace (_ && _ && _) with true.
  - rewrite Z.sub_0_r, Nat2Z.id. simpl Z.to_nat. now rewrite substring_head.
  - symmetry. rewrite !andb_true_iff, !Z.leb_le. lia.
Qed.

Lemma slice_from_split (r t : string) :
  strings.slice_from (r ++ t) (strings.len r) = Some t.
Proof.
  unfold strings.slice_from, strings.slice, strings.len.
  rewrite length_append.
  replace (_ && _ && _) with true.
  - rewrite Nat2Z.id.
    replace (Z.to_nat _) with (String.length t) by lia.
    now rewrite substring_tail.
  - symmetry. rewrite !andb_true_iff, !Z.leb_le. lia.
Qed.

Lemma append_assoc (r t u : string) : ((r ++ t) ++ u = r ++ (t ++ u))%string.
Proof. induction r as [|b r' IH]; simpl; [reflexivity | now rewrite IH]. Qed.

(** ** [ParseRepositoryTag] *)

(** The function at a string split at its last colon. *)
Lemma ParseRepositoryTag_at_last_colon (r t : string) :
  occurs ":"%char t = false ->
  ParseRepositoryTag (r ++ ":" ++ t) =
  Some (if occurs "/"%char t then ((r ++ ":" ++ t)%string, "") else (r, t)).
Proof.
  intros Ht. unfold ParseRepositoryTag.
  change (r ++ ":" ++ t)%string with (r ++ String ":"%char t)%string.
  rewrite (LastIndex_last ":"%char r t Ht).
  destruct (strings.len r <? 0)%Z eqn:E.
  { apply Z.ltb_lt in E. unfold strings.len in E. lia. }
  assert (Hfrom : strings.slice_from (r ++ String ":"%char t) (strings.len r + 1)
                  = Some t).
  { replace (r ++ String ":"%char t)%string
      with ((r ++ String ":"%char EmptyString) ++ t)%string
      by (rewrite append_assoc; reflexivity).
    replace (strings.len r + 1)%Z
      with (strings.len (r ++ String ":"%char EmptyString)).
    - apply slice_from_split.
    - unfold strings.len. rewrite length_append. simpl. lia. }
  rewrite Hfrom.
  change "/" with (String "/"%char EmptyString).
  rewrite (Contains_occurs "/"%char t).
  destruct (occurs "/"%char t); simpl; [reflexivity|].
  now rewrite slice_to_split.
Qed.

Lemma ParseRepositoryTag_no_colon (s : string) :
  occurs ":"%char s = false -> ParseRepositoryTag s = Some (s, "").
Proof.
  intros Hs. unfold ParseRepositoryTag.
  change ":" with (String ":"%char EmptyString).
  now rewrite (LastIndex_absent ":"%char s Hs).
Qed.

(** C8.  [ParseRepositoryTag] splits at the last colon and takes what
    follows it for the tag exactly when that suffix has no '/'; otherwise,
    and when there is no colon, the whole string is the repository and the
    tag is empty.  The four examples of the specification follow. *)
Theorem ParseRepositoryTag_last_colon_rule :
  (forall s : string,
      (occurs ":"%char s = false -> ParseRepositoryTag s = Some (s, "")) /\
      (forall r t : string,
          s = (r ++ ":" ++ t)%string -> occurs ":"%char t = false ->
          (occurs "/"%char t = false -> ParseRepositoryTag s = Some (r, t)) /\
          (occurs "/"%char t = true -> ParseRepositoryTag s = Some (s, "")))) /\
  ParseRepositoryTag "localhost.localdomain:5000/samalba/hipache:latest"
    = Some ("localhost.localdomain:5000/samalba/hipache", "latest") /\
  ParseRepositoryTag "localhost.localdomain:5000/samalba/hipache"
    = Some ("localhost.localdomain:5000/samalba/hipache", "") /\
  ParseRepositoryTag "alpine" = Some ("alpine", "") /\
  ParseRepositoryTag "a:b/c" = Some ("a:b/c", "").
Proof.
  split; [| repeat split; reflexivity].
  intros s. split.
  - apply ParseRepositoryTag_no_colon.
  - intros r t -> Ht.
    rewrite (ParseRepositoryTag_at_last_colon r t Ht).
    split; intros ->; reflexivity.
Qed.

Lemma ParseRepositoryTag_last_colon_rule_witness :
  ParseRepositoryTag "registry:5000/app" = Some ("registry:5000/app", "") /\
  ParseRepositoryTag "app:v1" = Some ("app", "v1") /\
  ParseRepositoryTag "app" = Some ("app", "").
Proof.
  destruct ParseRepositoryTag_last_colon_rule as [Hrule _].
  split; [| split].
  - apply (proj2 (proj2 (Hrule "registry:5000/app") "registry" "5000/app"
                    eq_refl eq_refl)).
    reflexivity.
  - apply (proj1 (proj2 (Hrule "app:v1") "app" "v1" eq_refl eq_refl)).
    reflexivity.
  - apply (proj1 (Hrule "app")). reflexivity.
Defined.

(** C9, as stated, fails on a string that ends in a colon: the tag is
    empty and the repository has lost the colon. *)
Lemma ParseRepositoryTag_trailing_colon_not_strict :
  ~ strict_round_trip "alpine:".
Proof.
  intros H.
  destruct (H "alpine" "" eq_refl) as (_ & Hrepo & _).
  specialize (Hrepo eq_refl). discriminate Hrepo.
Qed.

(** C9, amended.  [ParseRepositoryTag] never panics; a non-empty tag and
    its repository rebuild the input around a colon; with an empty tag the
    repository is the input, or the input without its final colon; the tag
    never contains '/'. *)
Theorem ParseRepositoryTag_round_trip (s : string) :
  exists repository tag,
    ParseRepositoryTag s = Some (repository, tag) /\
    (tag <> "" -> (repository ++ ":" ++ tag)%string = s) /\
    (tag = "" -> repository = s \/ (repository ++ ":")%string = s) /\
    occurs "/"%char tag = false.
Proof.
  destruct (last_occurrence ":"%char s) as [Hno | (r & t & -> & Ht)].
  - exists s, "". rewrite (ParseRepositoryTag_no_colon s Hno).
    repeat split; try reflexivity.
    + intros H. now contradiction H.
    + intros _. now left.
  - pose proof (ParseRepositoryTag_at_last_colon r t Ht) as HP.
    change (r ++ String ":"%char t)%string with (r ++ ":" ++ t)%string.
    destruct (occurs "/"%char t) eqn:Hslash.
    + exists (r ++ ":" ++ t)%string, "". rewrite HP.
      repeat split; try reflexivity.
      * intros H. now contradiction H.
      * intros _. now left.
    + exists r, t. rewrite HP.
      repeat split; try assumption.
      intros ->. now right.
Qed.

Lemma ParseRepositoryTag_round_trip_witness :
  exists repository tag,
    ParseRepositoryTag "alpine:" = Some (repository, tag) /\
    (tag <> "" -> (repository ++ ":" ++ tag)%string = "alpine:") /\
    (tag = "" -> repository = "alpine:" \/ (repository ++ ":")%string = "alpine:") /\
    occurs "/"%char tag = false.
Proof. exact (ParseRepositoryTag_round_trip "alpine:"). Defined.

(** ** Runs of [Exec] *)

Lemma steps_trans c opts n m s1 s2 s3 :
  steps c opts n s1 s2 -> steps c opts m s2 s3 -> steps c opts (n + m) s1 s3.
Proof.
  induction 1 as [s | n s s' s'' Hstep _ IH]; intros H2; simpl.
  - exact H2.
  - eapply steps_next; [exact Hstep | exact (IH H2)].
Qed.

Lemma steps_snoc c opts n s1 s2 s3 :
  steps c opts n s1 s2 -> step c opts s2 s3 -> steps c opts (S n) s1 s3.
Proof.
  intros H12 H23. replace (S n) with (n + 1) by lia.
  eapply steps_trans; [exact H12|].
  eapply steps_next; [exact H23 | apply steps_refl].
Qed.

(** Induction on sessions from their last step. *)
Lemma session_ind (c : Client) (opts : ExecOptions) (P : state -> Prop) :
  P (Exec_start c opts) ->
  (forall s s', session c opts s -> P s -> step c opts s s' -> P s') ->
  forall s, session c opts s -> P s.
Proof.
  intros Hstart Hstep s [n Hn].
  assert (Hgen : forall s0, session c opts s0 -> P s0 ->
                            forall s1, steps c opts n s0 s1 -> P s1).
  { clear Hn. induction n as [|n IH]; intros s0 Hs0 HP s1 H; inversion H; subst.
    - exact HP.
    - eapply IH; [ | | eassumption].
      + destruct Hs0 as [k Hk]. exists (S k). eapply steps_snoc; eassumption.
      + eapply Hstep; eassumption. }
  eapply Hgen; [ | exact Hstart | exact Hn].
  exists 0. apply steps_refl.
Qed.

(** States computed by [reach] are states of some run, and conversely. *)
Lemma reach_sound c opts n s0 s :
  In s (reach c opts n s0) -> exists k, steps c opts k s0 s.
Proof.
  revert s0. induction n as [|n IH]; intros s0 Hin; simpl in Hin.
  - destruct Hin as [<- | []]. exists 0. apply steps_refl.
  - destruct Hin as [<- | Hin].
    + exists 0. apply steps_refl.
    + apply in_flat_map in Hin as (s1 & Hs1 & Hin).
      destruct (IH _ Hin) as [k Hk].
      exists (S k). eapply steps_next; [exact Hs1 | exact Hk].
Qed.

Lemma reach_complete c opts k s0 s :
  steps c opts k s0 s -> forall n, k <= n -> In s (reach c opts n s0).
Proof.
  induction 1 as [s | k s s' s'' Hstep _ IH]; intros n Hle.
  - destruct n; simpl; now left.
  - destruct n as [|n]; [lia|]. simpl. right.
    apply in_flat_map. exists s'. split; [exact Hstep|].
    apply IH. lia.
Qed.

(** Every step uses up some of the weight, so runs are finite. *)
Lemma step_weight c opts s s' :
  step c opts s s' -> weight c opts s' < weight c opts s.
Proof.
  unfold step, successors, weight, relay_weight.
  destruct s as [pc rl id ch ec cs out cl rs seen]. simpl.
  destruct rl as [ | | ops ret | | ]; simpl;
    try (destruct ops as [|[v|] ops]); simpl;
    destruct pc; simpl; destruct ch; simpl;
    try (destruct ec as [[e|]|]); simpl;
    intros Hin;
    repeat match goal with
           | H : _ \/ _ |- _ => destruct H as [<- | H]
           | H : False |- _ => destruct H
           end; simpl; try lia.
Qed.

Lemma steps_weight c opts n s s' :
  steps c opts n s s' -> n + weight c opts s' <= weight c opts s.
Proof.
  induction 1 as [s | n s s' s'' Hstep _ IH]; [lia|].
  apply step_weight in Hstep. lia.
Qed.

Lemma session_reach c opts s :
  session c opts s ->
  In s (reach c opts (weight c opts (Exec_start c opts)) (Exec_start c opts)).
Proof.
  intros [n Hn]. eapply reach_complete; [exact Hn|].
  apply steps_weight in Hn. lia.
Qed.

(** ** The prefix of [Exec] *)

(** What a successful creation means. *)
Lemma Exec_create_inr c opts cs id :
  Exec_create c opts = (cs, inr id) ->
  Container opts <> "" /\ id <> "" /\ cs = [create_call opts] /\
  exists body status,
    do c "POST" ("/containers/" ++ Container opts ++ "/exec")%string opts
      = (body, status, None)
    /\ json_Unmarshal c body = (id, None).
Proof.
  unfold Exec_create.
  destruct (Container opts =? "")%string eqn:Hc; [discriminate|].
  apply String.eqb_neq in Hc.
  destruct (do c "POST" _ opts) as [[body status] [e|]] eqn:Hdo; [discriminate|].
  destruct (json_Unmarshal c body) as [Id [e|]] eqn:Hjson; [discriminate|].
  destruct (Id =? "")%string eqn:Hid; [discriminate|].
  apply String.eqb_neq in Hid.
  intros H. injection H as <- <-.
  split; [assumption|]. split; [assumption|]. split; [reflexivity|].
  exists body, status. split; [reflexivity | exact Hjson].
Qed.

(** A call that ends in the prefix takes no step. *)
Lemma session_of_failed_creation c opts cs e s :
  Exec_create c opts = (cs, inl e) ->
  session c opts s ->
  s = Exec_start c opts /\ result s = Some (Some e) /\ calls s = cs /\
  relay s = NoRelay.
Proof.
  intros Hcreate [n Hn].
  assert (Hstart : Exec_start c opts =
                   {| coord := Returned (Some e); relay := NoRelay;
                      exec_id := ""; hijacked := ChanOpen; errCh := None;
                      calls := cs; stdout := []; closed := [];
                      ready_seen := []; completion_seen := [] |}).
  { unfold Exec_start. now rewrite Hcreate. }
  rewrite Hstart in *.
  inversion Hn as [ | k s0 s1 s2 Hstep _]; subst.
  - repeat split; reflexivity.
  - destruct Hstep.
Qed.

(** ** The invariant of a session *)

Lemma session_inv_start c opts cs id :
  Exec_create c opts = (cs, inr id) ->
  session_inv c opts id (Exec_start c opts).
Proof.
  intros Hcreate. unfold Exec_start. rewrite Hcreate.
  apply Exec_create_inr in Hcreate as (_ & _ & -> & _).
  constructor; simpl; auto.
Qed.

Ltac use_relay_result :=
  repeat match goal with
         | H : ?x = hijack_err _ |- _ => rewrite <- H in *; clear H
         end.

Ltac split_cases :=
  repeat match goal with
         | H : _ /\ _ |- _ => destruct H
         | H : _ \/ _ |- _ => destruct H
         | H : exists _, _ |- _ => destruct H
         | H : Some _ = Some _ |- _ => injection H as H
         | H : [_] = [_] |- _ => injection H as H
         end.

Lemma session_inv_step c opts id s s' :
  session_inv c opts id s -> step c opts s s' -> session_inv c opts id s'.
Proof.
  intros [Hid Hcalls Hout Hrelay Hcoord].
  unfold step, successors.
  destruct s as [pc rl id0 ch ec cs out cl rs seen].
  unfold monitor_done, owned in *. simpl in *. subst id0.
  destruct rl as [ | | ops ret | | ]; simpl in *;
    try (destruct ops as [|[v|] ops]); simpl;
    destruct pc as [ | d | d | r d | r | r ]; simpl in *; destruct ch; simpl;
    try (destruct ec as [[e|]|]); simpl;
    intros Hin;
    repeat match goal with
           | H : _ \/ _ |- _ => destruct H as [<- | H]
           | H : False |- _ => destruct H
           end;
    split_cases; simpl in *; rewrite ?app_nil_r in *;
    subst; try discriminate; try congruence;
    constructor; unfold monitor_done, owned; simpl;
    rewrite <- ?app_assoc, ?app_nil_r; simpl;
    use_relay_result; try reflexivity;
    try (destruct d; simpl);
    try solve [ intuition (eauto; congruence) ].
Qed.

Lemma session_invariant c opts cs id s :
  Exec_create c opts = (cs, inr id) ->
  session c opts s -> session_inv c opts id s.
Proof.
  intros Hcreate Hs. induction Hs using session_ind.
  - eapply session_inv_start; eassumption.
  - eapply session_inv_step; eassumption.
Qed.

(** ** Sessions whose relay follows the specification *)

Arguments relay_run : simpl never.
Arguments relay_call : simpl never.
Arguments monitor_calls : simpl never.
Arguments monitor_output : simpl never.

Ltac each_state H :=
  repeat match type of H with
         | _ \/ _ => destruct H as [<- | H]
         | False => destruct H
         end.

(** With the relay of the specification every run is at most nine steps
    long, and a state that allows no further step is one in which [Exec]
    has returned the result of the relay after a single receive from
    [errCh] and has closed the connection it was given. *)
Lemma spec_relay_sessions c opts cs id u s :
  Exec_create c opts = (cs, inr id) ->
  relay_run c opts id = spec_hijack2 u ->
  session c opts s ->
  weight c opts (Exec_start c opts) <= 9 /\
  (final c opts s ->
   coord s = Returned (upgrade_result u) /\ relay s = Finished /\
   errCh s = None /\ completion_seen s = [upgrade_result u] /\
   closed s = upgrade_conn u /\ hijacked s = ChanClosed).
Proof.
  intros Hcreate Hrun Hs. apply session_reach in Hs.
  unfold Exec_start in *. rewrite Hcreate in *.
  match type of Hs with In _ (reach _ _ _ ?st) => set (s0 := st) in * end.
  assert (Hw : weight c opts s0 = List.length (started_ops (spec_hijack2 u)) + 7).
  { unfold weight, relay_weight, s0. simpl. rewrite Hrun. lia. }
  assert (Hsucc : successors c opts s0 =
                  [ {| coord := AtSelect;
                       relay := InHijack (started_ops (spec_hijack2 u))
                                         (hijack_err (spec_hijack2 u));
                       exec_id := id; hijacked := ChanOpen; errCh := None;
                       calls := cs ++ [relay_call opts id]; stdout := [];
                       closed := []; ready_seen := [];
                       completion_seen := [] |} ]).
  { unfold successors, s0. cbn. now rewrite Hrun. }
  rewrite Hw in *. unfold final.
  destruct u as [e | conn r]; simpl List.length in *; simpl Nat.add in *.
  - split; [lia|].
    change (reach c opts 8 s0)
      with (s0 :: flat_map (reach c opts 7) (successors c opts s0)) in Hs.
    rewrite Hsucc in Hs. cbn in Hs.
    each_state Hs; cbn; try discriminate; intros _; repeat split.
  - split; [lia|].
    change (reach c opts 9 s0)
      with (s0 :: flat_map (reach c opts 8) (successors c opts s0)) in Hs.
    rewrite Hsucc in Hs. cbn in Hs.
    each_state Hs; cbn; try discriminate; intros _; repeat split.
Qed.

(** ** Helper facts on sessions *)

Lemma created_inv c opts id :
  created c opts id -> exists cs, Exec_create c opts = (cs, inr id).
Proof.
  unfold created. destruct (Exec_create c opts) as [cs r]. simpl.
  intros ->. now exists cs.
Qed.

Lemma session_of_reach c opts n s :
  In s (reach c opts n (Exec_start c opts)) -> session c opts s.
Proof. apply reach_sound. Qed.

(** The prefix calls nothing but the dispatcher, and at most once. *)
Lemma Exec_create_calls c opts :
  fst (Exec_create c opts) = [] \/ fst (Exec_create c opts) = [create_call opts].
Proof.
  unfold Exec_create, create_call.
  destruct (Container opts =? "")%string; [now left|].
  destruct (do c "POST" _ opts) as [[body status] [e|]]; [now right|].
  destruct (json_Unmarshal c body) as [Id [e|]]; [now right|].
  destruct (Id =? "")%string; now right.
Qed.



(** What a returned call has seen, for any [hijack2]. *)
Lemma returned_after_relay c opts id s ret :
  session_inv c opts id s -> result s = Some ret ->
  ret = hijack_err (relay_run c opts id) /\ completion_seen s = [ret] /\
  relay s = Finished /\ errCh s = None /\ closed s = owned s.
Proof.
  intros [_ _ _ Hrelay Hcoord]. unfold result.
  destruct (coord s); try discriminate. intros H. injection H as ->.
  destruct Hcoord as (Hclosed & Hseen & _).
  rewrite Hseen in Hrelay.
  destruct (relay s) as [ | | ops r | | ].
  - destruct Hrelay.
  - destruct Hrelay as (_ & _ & _ & H); discriminate.
  - destruct Hrelay as (_ & _ & H); discriminate.
  - destruct Hrelay as [(_ & H) | (Herr & H)]; [discriminate|].
    injection H as H. repeat split; auto.
  - destruct Hrelay as (_ & H); discriminate.
Qed.

(** ** [Exec]: validation and creation *)

(** C3.  With an empty [Container] the call is over at once: it returns
    the "no such container" error, and neither the dispatcher nor any other
    collaborator is called. *)
Theorem Exec_empty_container_no_network_call c opts s :
  Container opts = "" ->
  session c opts s ->
  s = Exec_start c opts /\
  result s = Some (Some (NoSuchContainer "")) /\
  calls s = [] /\ relay s = NoRelay.
Proof.
  intros Hempty Hs.
  assert (Hcreate : Exec_create c opts = ([], inl (NoSuchContainer ""))).
  { unfold Exec_create. now rewrite Hempty. }
  exact (session_of_failed_creation c opts _ _ s Hcreate Hs).
Qed.

Lemma Exec_empty_container_no_network_call_witness :
  let opts := {| User := ""; Privileged := false; AttachStdin := false;
                 AttachStdout := true; AttachStderr := true; Tty := false;
                 Command := ["ls"]; Container := "";
                 OutputStream := other_stream 1; ErrorStream := other_stream 2;
                 InputStream := nil_stream |} in
  result (Exec_start good_client opts) = Some (Some (NoSuchContainer "")) /\
  calls (Exec_start good_client opts) = [].
Proof.
  intros opts.
  assert (Hs : session good_client opts (Exec_start good_client opts)).
  { exists 0. apply steps_refl. }
  destruct (Exec_empty_container_no_network_call good_client opts _ eq_refl Hs)
    as (_ & Hres & Hcalls & _).
  split; assumption.
Defined.

(** C4.  When the dispatcher answers without error and the decoded
    identifier is empty (the field is empty, or absent so that [Id] keeps
    its zero value), [Exec] returns the "missing operation id" error, which
    is not nil and is not the validation error, after the one dispatcher
    call.  When the dispatcher fails, [Exec] returns the dispatcher's error
    itself. *)
Theorem Exec_missing_operation_id c opts s :
  Container opts <> "" ->
  session c opts s ->
  (forall body status,
      do c "POST" ("/containers/" ++ Container opts ++ "/exec")%string opts
        = (body, status, None) ->
      json_Unmarshal c body = ("", None) ->
      result s = Some (Some missing_operation_id) /\
      calls s = [create_call opts] /\ relay s = NoRelay) /\
  (forall body status e,
      do c "POST" ("/containers/" ++ Container opts ++ "/exec")%string opts
        = (body, status, Some e) ->
      result s = Some (Some e) /\
      calls s = [create_call opts] /\ relay s = NoRelay) /\
  (forall ID, missing_operation_id <> NoSuchContainer ID).
Proof.
  intros Hname Hs. apply String.eqb_neq in Hname.
  split; [| split].
  - intros body status Hdo Hjson.
    assert (Hcreate : Exec_create c opts
                      = ([create_call opts], inl missing_operation_id)).
    { unfold Exec_create. now rewrite Hname, Hdo, Hjson. }
    destruct (session_of_failed_creation c opts _ _ s Hcreate Hs)
      as (_ & Hres & Hcalls & Hrelay).
    now repeat split.
  - intros body status e Hdo.
    assert (Hcreate : Exec_create c opts = ([create_call opts], inl e)).
    { unfold Exec_create. now rewrite Hname, Hdo. }
    destruct (session_of_failed_creation c opts _ _ s Hcreate Hs)
      as (_ & Hres & Hcalls & Hrelay).
    now repeat split.
  - intros ID. discriminate.
Qed.

Lemma Exec_missing_operation_id_witness :
  let c := sample_client ("", 201%Z, None) (spec_hijack2 (UpgradeSucceeds 7 None)) None in
  let opts := sample_opts false nil_stream (other_stream 1) in
  result (Exec_start c opts) = Some (Some missing_operation_id) /\
  calls (Exec_start c opts) = [create_call opts].
Proof.
  intros c opts.
  assert (Hs : session c opts (Exec_start c opts)).
  { exists 0. apply steps_refl. }
  assert (Hname : Container opts <> "") by discriminate.
  destruct (Exec_missing_operation_id c opts _ Hname Hs) as (Hmissing & _).
  destruct (Hmissing "" 201%Z eq_refl eq_refl) as (Hres & Hcalls & _).
  split; assumption.
Defined.

(** ** [Exec]: the calls of a session *)

(** Every call of a session is the creation call, the relay's call of
    [hijack2] or the call of the size monitor, each with the arguments the
    source gives it. *)
Lemma calls_of_session c opts s k :
  session c opts s -> In k (calls s) ->
  k = create_call opts \/
  exists id, created c opts id /\
             (k = relay_call opts id \/
              (k = CallMonitorTtySize id true (isTerminalOut opts) (outFd opts)
               /\ Tty opts && isTerminalIn opts = true
               /\ monitor_done s = true)).
Proof.
  intros Hs Hin.
  destruct (Exec_create c opts) as [cs [e | id]] eqn:Hcreate.
  - destruct (session_of_failed_creation c opts cs e s Hcreate Hs)
      as (_ & _ & Hcalls & _).
    pose proof (Exec_create_calls c opts) as Hcs.
    rewrite Hcreate in Hcs. simpl in Hcs. rewrite Hcalls in Hin.
    destruct Hcs as [-> | ->]; [destruct Hin|].
    destruct Hin as [<- | []]. now left.
  - assert (Hcreated : created c opts id).
    { unfold created. now rewrite Hcreate. }
    destruct (session_invariant c opts cs id s Hcreate Hs) as [_ Hcalls _ _ _].
    rewrite Hcalls in Hin. destruct Hin as [<- | Hin]; [now left|].
    right. exists id. split; [assumption|].
    apply in_app_or in Hin as [Hin | Hin].
    + destruct (relay_started (relay s)); [|destruct Hin].
      destruct Hin as [<- | []]. now left.
    + destruct (monitor_done s); [|destruct Hin].
      unfold monitor_calls in Hin.
      destruct (Tty opts && isTerminalIn opts); [|destruct Hin].
      destruct Hin as [<- | []]. right. now repeat split.
Qed.

Lemma first_outcome_session c opts : session c opts (first_outcome c opts).
Proof.
  unfold first_outcome, Exec_outcomes.
  destruct (filter _ _) as [|s l] eqn:E; simpl.
  - exists 0. apply steps_refl.
  - assert (Hin : In s (s :: l)) by now left.
    rewrite <- E in Hin. apply filter_In in Hin as [Hin _].
    eapply session_of_reach. exact Hin.
Qed.

Lemma last_in (A : Type) (l : list A) (d : A) : l = [] \/ In (last l d) l.
Proof.
  induction l as [|x l IH]; [now left|]. right.
  destruct IH as [-> | IH]; [now left|].
  destruct l as [|y l]; [now left|]. right. exact IH.
Qed.

Lemma last_outcome_session c opts : session c opts (last_outcome c opts).
Proof.
  unfold last_outcome.
  destruct (last_in _ (Exec_outcomes c opts) (Exec_start c opts)) as [-> | Hin].
  - exists 0. apply steps_refl.
  - unfold Exec_outcomes in Hin at 2. apply filter_In in Hin as [Hin _].
    eapply session_of_reach. exact Hin.
Qed.





(** ** [Exec]: synchronisation with the relay *)

(** Some run ends: [Exec_outcomes] is never empty. *)
Lemma reach_has_final c opts n s :
  weight c opts s <= n ->
  exists s', In s' (reach c opts n s) /\ successors c opts s' = [].
Proof.
  revert s. induction n as [|n IH]; intros s Hw.
  - exists s. split; [now left|].
    destruct (successors c opts s) as [|s1 l] eqn:E; [reflexivity|].
    assert (Hstep : step c opts s s1) by (unfold step; rewrite E; now left).
    apply step_weight in Hstep. lia.
  - destruct (successors c opts s) as [|s1 l] eqn:E.
    + exists s. split; [now left | exact E].
    + assert (Hstep : step c opts s s1) by (unfold step; rewrite E; now left).
      pose proof (step_weight c opts s s1 Hstep) as Hlt.
      destruct (IH s1) as (s' & Hin & Hfin); [lia|].
      exists s'. split; [| exact Hfin].
      simpl. right. apply in_flat_map. exists s1. split; [exact Hstep | exact Hin].
Qed.

Lemma Exec_outcomes_spec c opts s :
  In s (Exec_outcomes c opts) <->
  In s (reach c opts (weight c opts (Exec_start c opts)) (Exec_start c opts))
  /\ final c opts s.
Proof.
  unfold Exec_outcomes, final. rewrite filter_In.
  destruct (successors c opts s); split; intros [H1 H2]; split;
    auto; discriminate.
Qed.

Lemma Exec_nonempty c opts : Exec c opts <> [].
Proof.
  destruct (reach_has_final c opts _ (Exec_start c opts) (le_n _))
    as (s & Hin & Hfin).
  assert (H : In s (Exec_outcomes c opts)) by (apply Exec_outcomes_spec; now split).
  unfold Exec. destruct (Exec_outcomes c opts); [destruct H | discriminate].
Qed.

(** C1.  In a session that created its exec instance and whose relay
    behaves as the specification describes, every run of [Exec] returns,
    and returns the result of the relay.  In every state of such a session
    [Exec] has received from [errCh] at most once, and only the relay's
    result; when it has returned, it has received exactly once, after the
    relay wrote its result, and it returns that value; every interleaving
    ends within nine steps, and ends with [Exec] returned.  This covers the
    run in which the select receives the completion first and the one in
    which it receives the connection first. *)
Theorem Exec_observes_completion_exactly_once c opts id u :
  created c opts id ->
  relay_run c opts id = spec_hijack2 u ->
  (Exec c opts <> [] /\
   Forall (fun r => r = Some (upgrade_result u)) (Exec c opts)) /\
  forall s, session c opts s ->
    (completion_seen s = [] \/ completion_seen s = [upgrade_result u]) /\
    (forall ret, result s = Some ret ->
        ret = upgrade_result u /\ completion_seen s = [ret] /\
        relay s = Finished /\ errCh s = None) /\
    (forall n, steps c opts n (Exec_start c opts) s -> n <= 9) /\
    (final c opts s ->
     result s = Some (upgrade_result u) /\
     completion_seen s = [upgrade_result u]).
Proof.
  intros Hcreated Hrun.
  destruct (created_inv c opts id Hcreated) as [cs Hcreate].
  assert (Hfinal : forall s, session c opts s -> final c opts s ->
                             result s = Some (upgrade_result u) /\
                             completion_seen s = [upgrade_result u]).
  { intros s Hs Hfin.
    destruct (spec_relay_sessions c opts cs id u s Hcreate Hrun Hs) as [_ H].
    destruct (H Hfin) as (Hcoord & _ & _ & Hseen & _).
    unfold result. rewrite Hcoord. now split. }
  split; [split|].
  - apply Exec_nonempty.
  - unfold Exec. apply Forall_forall. intros r Hr.
    apply in_map_iff in Hr as (s & <- & Hin).
    apply Exec_outcomes_spec in Hin as [Hin Hfin].
    apply session_of_reach in Hin. now apply Hfinal.
  - intros s Hs.
    pose proof (session_invariant c opts cs id s Hcreate Hs) as Hinv.
    destruct (spec_relay_sessions c opts cs id u s Hcreate Hrun Hs)
      as [Hweight _].
    split; [| split; [| split]].
    + unfold upgrade_result. rewrite <- Hrun.
      destruct Hinv as [_ _ _ Hrelay _].
      destruct (relay s); tauto.
    + intros ret Hret. unfold upgrade_result. rewrite <- Hrun.
      destruct (returned_after_relay c opts id s ret Hinv Hret)
        as (H1 & H2 & H3 & H4 & _).
      now repeat split.
    + intros n Hn. apply steps_weight in Hn. lia.
    + now apply Hfinal.
Qed.

Lemma Exec_observes_completion_exactly_once_witness :
  Exec good_client file_opts = [Some None; Some None; Some None] /\
  Forall (fun r => r = Some None) (Exec good_client file_opts).
Proof.
  assert (Hcreated : created good_client file_opts "exec-1") by reflexivity.
  split; [vm_compute; reflexivity|].
  exact (proj2 (proj1
           (Exec_observes_completion_exactly_once
              good_client file_opts "exec-1" (UpgradeSucceeds 7 None)
              Hcreated eq_refl))).
Defined.

(** When the upgrade fails, the select may see the closed channel first or
    the error first; both runs return the error after one receive. *)
Example Exec_refused_both_orders :
  map (fun s => (result s, ready_seen s, completion_seen s))
      (Exec_outcomes refused_client file_opts)
  = let e := Some (foreign "connection refused") in
    [ (Some e, [None], [e]); (Some e, [None], [e]); (Some e, [None], [e]);
      (Some e, [], [e]) ].
Proof. vm_compute. reflexivity. Qed.

(** The relay's protocol matters: a [hijack2] that returns nil without
    sending a connection lets the select take the nil completion, after
    which line 136 waits for a second value that never comes. *)
Example Exec_blocks_after_nil_completion_without_ready :
  let s := last_outcome silent_client file_opts in
  final silent_client file_opts s /\ result s = None /\
  coord s = AtFinalRecv None /\ completion_seen s = [None].
Proof. vm_compute. repeat split. Qed.

(** C2.  For any [hijack2]: [Exec] calls [Close] at most once, and only
    on the connection that the select received; when [Exec] has returned
    after receiving a non-nil closer, it has closed that connection exactly
    once; when no connection was received, nothing is closed.  With the
    relay of the specification every run ends with [Exec] returned, the
    connection of a successful upgrade closed, and no close after a failed
    upgrade. *)
Theorem Exec_closes_owned_connection_once c opts s :
  session c opts s ->
  List.length (closed s) <= 1 /\
  (forall cl, In cl (closed s) -> ready_seen s = [Some cl]) /\
  (forall ret cl, result s = Some ret -> ready_seen s = [Some cl] ->
                  closed s = [cl]) /\
  (owned s = [] -> closed s = []) /\
  (forall id u, created c opts id -> relay_run c opts id = spec_hijack2 u ->
                final c opts s ->
                (exists ret, result s = Some ret) /\ closed s = upgrade_conn u).
Proof.
  intros Hs.
  destruct (Exec_create c opts) as [cs [e | id]] eqn:Hcreate.
  - destruct (session_of_failed_creation c opts cs e s Hcreate Hs)
      as (-> & _ & _ & _).
    unfold Exec_start, created. rewrite Hcreate. simpl.
    repeat split; auto; try (intros; contradiction); try discriminate.
  - pose proof (session_invariant c opts cs id s Hcreate Hs) as Hinv.
    destruct Hinv as [_ _ _ _ Hcoord].
    assert (Hshape : (closed s = [] \/ closed s = owned s) /\
                     (ready_seen s = [] \/ exists v, ready_seen s = [v]) /\
                     (forall ret, result s = Some ret -> closed s = owned s)).
    { unfold result. destruct (coord s); split_cases;
        repeat split; eauto; try discriminate. }
    destruct Hshape as (Hclosed & Hready & Hret). unfold owned in *.
    split; [| split; [| split; [| split]]].
    + destruct Hclosed as [-> | ->]; [simpl; lia|].
      destruct Hready as [-> | [[v|] ->]]; simpl; lia.
    + intros cl Hin. destruct Hclosed as [H | H]; rewrite H in Hin;
        [destruct Hin|].
      destruct Hready as [H' | [[v|] H']]; rewrite H' in *; simpl in Hin;
        try contradiction.
      destruct Hin as [<- | []]. reflexivity.
    + intros ret cl Hres Hown. rewrite (Hret ret Hres), Hown. reflexivity.
    + intros Hnone. destruct Hclosed as [-> | ->]; auto.
    + intros id' u Hcreated Hrun Hfin.
      unfold created in Hcreated. rewrite Hcreate in Hcreated.
      injection Hcreated as <-.
      destruct (spec_relay_sessions c opts cs id u s Hcreate Hrun Hs)
        as [_ Hfinal].
      destruct (Hfinal Hfin) as (Hpc & _ & _ & _ & Hcl & _).
      split; [| exact Hcl].
      exists (upgrade_result u). unfold result. now rewrite Hpc.
Qed.

Lemma Exec_closes_owned_connection_once_witness :
  ready_seen (first_outcome good_client file_opts) = [Some 7] /\
  closed (first_outcome good_client file_opts) = [7].
Proof.
  assert (Hready : ready_seen (first_outcome good_client file_opts) = [Some 7]).
  { vm_compute. reflexivity. }
  assert (Hres : result (first_outcome good_client file_opts) = Some None).
  { vm_compute. reflexivity. }
  split; [exact Hready|].
  exact (proj1 (proj2 (proj2
           (Exec_closes_owned_connection_once good_client file_opts _
              (first_outcome_session good_client file_opts))))
           None 7 Hres Hready).
Defined.

(** ** [Exec]: the terminal-size monitor *)

Lemma monitor_started_inv c opts s :
  session c opts s -> monitor_started s ->
  Tty opts && isTerminalIn opts = true /\ monitor_done s = true.
Proof.
  intros Hs (k & Hin & Hk).
  destruct (calls_of_session c opts s k Hs Hin)
    as [-> | (id & _ & [-> | (_ & Hcond & Hdone)])];
    try discriminate.
  now split.
Qed.




(** C10, as stated, fails for a call that returns the relay's error from
    the select (line 113): [Tty] is set and the input is an [*os.File], yet
    the monitor was never started. *)
Lemma Exec_early_return_starts_no_monitor :
  ~ monitor_in_every_session refused_client file_opts.
Proof.
  intros H.
  assert (Hres : result (last_outcome refused_client file_opts)
                 = Some (Some (foreign "connection refused"))).
  { vm_compute. reflexivity. }
  destruct (H _ _ (last_outcome_session refused_client file_opts) Hres)
    as [_ Hstart].
  destruct (Hstart (conj eq_refl eq_refl)) as (k & Hin & Hk).
  vm_compute in Hin.
  destruct Hin as [<- | [<- | []]]; discriminate Hk.
Qed.

(** C10, amended.  The terminal test looks at the dynamic type only: an
    [*os.File] of any kind passes.  In a session that has gone through
    lines 117-134 the monitor has been started, once, exactly when [Tty] is
    set and the input is an [*os.File]; its arguments say whether the
    output is an [*os.File] and carry its descriptor, or 0 when it is not.
    A session that has not gone through these lines has started no monitor;
    of the calls that returned, those are the ones whose select received
    nothing from [hijacked]. *)
Theorem Exec_terminal_test_is_a_type_test c opts id s :
  created c opts id ->
  session c opts s ->
  (forall f, InputStream opts = os_file f -> isTerminalIn opts = true) /\
  isTerminalIn opts = is_os_File (InputStream opts) /\
  (monitor_done s = true ->
   filter is_CallMonitorTtySize (calls s)
   = if Tty opts && is_os_File (InputStream opts)
     then [CallMonitorTtySize id true (is_os_File (OutputStream opts))
             (match OutputStream opts with
              | os_file file => Fd file
              | _ => 0%N
              end)]
     else []) /\
  (monitor_done s = false -> filter is_CallMonitorTtySize (calls s) = []) /\
  (forall ret, result s = Some ret ->
               (monitor_done s = true <-> ready_seen s <> [])).
Proof.
  intros Hcreated Hs.
  destruct (created_inv c opts id Hcreated) as [cs Hcreate].
  destruct (session_invariant c opts cs id s Hcreate Hs) as [_ Hcalls _ _ _].
  assert (Hfilter : filter is_CallMonitorTtySize (calls s)
                    = if monitor_done s
                      then filter is_CallMonitorTtySize (monitor_calls opts id)
                      else []).
  { rewrite Hcalls. cbn [filter is_CallMonitorTtySize create_call].
    rewrite filter_app.
    replace (filter is_CallMonitorTtySize
               (if relay_started (relay s) then [relay_call opts id] else []))
      with (@nil call) by (destruct (relay_started (relay s)); reflexivity).
    destruct (monitor_done s); reflexivity. }
  split; [| split; [| split; [| split]]].
  - intros f Hf. unfold isTerminalIn. now rewrite Hf.
  - reflexivity.
  - intros Hdone. rewrite Hfilter, Hdone. unfold monitor_calls.
    change (isTerminalIn opts) with (is_os_File (InputStream opts)).
    destruct (Tty opts && is_os_File (InputStream opts)); reflexivity.
  - intros Hdone. now rewrite Hfilter, Hdone.
  - intros ret Hres. unfold result in Hres. unfold monitor_done.
    destruct (coord s); try discriminate.
    destruct (ready_seen s); split; congruence.
Qed.

Lemma Exec_terminal_test_is_a_type_test_witness :
  filter is_CallMonitorTtySize (calls (first_outcome good_client file_opts))
  = [CallMonitorTtySize "exec-1" true true 1%N].
Proof.
  assert (Hcreated : created good_client file_opts "exec-1") by reflexivity.
  assert (Hdone : monitor_done (first_outcome good_client file_opts) = true).
  { vm_compute. reflexivity. }
  exact (proj1 (proj2 (proj2
           (Exec_terminal_test_is_a_type_test good_client file_opts "exec-1" _
              Hcreated (first_outcome_session good_client file_opts))))
           Hdone).
Defined.

(** * Further properties *)

(** ** What [Exec] requires of [hijack2] *)









(** X1.  When the dispatcher answers without error but the body cannot be
    decoded, [Exec] returns the decoder's error (lines 79-82), whatever the
    decoder left in [Id]; the dispatcher has been called once and
    [hijack2] is never called. *)
Theorem Exec_returns_decoding_error c opts s body status Id e :
  Container opts <> "" ->
  do c "POST" ("/containers/" ++ Container opts ++ "/exec")%string opts
    = (body, status, None) ->
  json_Unmarshal c body = (Id, Some e) ->
  session c opts s ->
  result s = Some (Some e) /\ calls s = [create_call opts] /\
  relay s = NoRelay /\ s = Exec_start c opts.
Proof.
  intros Hname Hdo Hjson Hs. apply String.eqb_neq in Hname.
  assert (Hcreate : Exec_create c opts = ([create_call opts], inl e)).
  { unfold Exec_create. now rewrite Hname, Hdo, Hjson. }
  destruct (session_of_failed_creation c opts _ _ s Hcreate Hs)
    as (Hstart & Hres & Hcalls & Hrelay).
  now repeat split.
Qed.

Lemma Exec_returns_decoding_error_witness :
  let opts := sample_opts false nil_stream (other_stream 1) in
  result (Exec_start undecodable_client opts)
    = Some (Some (foreign "invalid character")) /\
  calls (Exec_start undecodable_client opts) = [create_call opts].
Proof.
  intros opts.
  assert (Hs : session undecodable_client opts (Exec_start undecodable_client opts)).
  { exists 0. apply steps_refl. }
  assert (Hname : Container opts <> "") by discriminate.
  destruct (Exec_returns_decoding_error undecodable_client opts _
              "<html>" 200%Z "" (foreign "invalid character")
              Hname eq_refl eq_refl Hs) as (Hres & Hcalls & _).
  split; assumption.
Defined.








(** ** What a returned call has done *)

(** X5.  [Exec] returns nil only after a successful creation, when
    [hijack2] returned nil and the select received a value from [hijacked]
    (a closer, or the nil of the closed channel); the call has then gone
    through the terminal check and has closed exactly what it received. *)
Theorem Exec_nil_result_went_through_ready c opts s :
  session c opts s ->
  result s = Some None ->
  exists id v,
    created c opts id /\ hijack_err (relay_run c opts id) = None /\
    ready_seen s = [v] /\ closed s = opt_list v /\ monitor_done s = true.
Proof.
  intros Hs Hres.
  destruct (Exec_create c opts) as [cs [e | id]] eqn:Hcreate.
  - destruct (session_of_failed_creation c opts cs e s Hcreate Hs)
      as (_ & H & _).
    congruence.
  - pose proof (session_invariant c opts cs id s Hcreate Hs) as Hinv.
    destruct (returned_after_relay c opts id s None Hinv Hres)
      as (Herr & _ & _ & _ & Hclosed).
    destruct Hinv as [_ _ _ _ Hcoord].
    unfold result in Hres. unfold monitor_done, owned in *.
    destruct (coord s); try discriminate. injection Hres as ->.
    destruct Hcoord as (_ & _ & [[v Hready] | [_ Habs]]);
      [| now contradiction Habs].
    exists id, v. rewrite Hclosed, Hready. simpl. rewrite app_nil_r.
    repeat split; auto. unfold created. now rewrite Hcreate.
Qed.

Lemma Exec_nil_result_went_through_ready_witness :
  exists id v,
    created good_client file_opts id /\
    hijack_err (relay_run good_client file_opts id) = None /\
    ready_seen (first_outcome good_client file_opts) = [v] /\
    closed (first_outcome good_client file_opts) = opt_list v /\
    monitor_done (first_outcome good_client file_opts) = true.
Proof.
  assert (Hres : result (first_outcome good_client file_opts) = Some None).
  { vm_compute. reflexivity. }
  exact (Exec_nil_result_went_through_ready good_client file_opts _
           (first_outcome_session good_client file_opts) Hres).
Defined.





(** X8.  [Exec] calls [Close] on the connection only after [hijack2] has
    returned and its result has been received from [errCh]: the connection
    is never closed under a running relay. *)
Theorem Exec_closes_only_after_relay_finished c opts s :
  session c opts s ->
  closed s <> [] ->
  relay s = Finished /\ errCh s = None /\
  exists id, created c opts id /\
             completion_seen s = [hijack_err (relay_run c opts id)].
Proof.
  intros Hs Hclosed.
  destruct (Exec_create c opts) as [cs [e | id]] eqn:Hcreate.
  - destruct (session_of_failed_creation c opts cs e s Hcreate Hs)
      as (-> & _).
    unfold Exec_start in Hclosed. rewrite Hcreate in Hclosed.
    now contradiction Hclosed.
  - destruct (session_invariant c opts cs id s Hcreate Hs)
      as [_ _ _ Hrelay Hcoord].
    assert (Hseen : exists ret, completion_seen s = [ret]).
    { destruct (coord s); split_cases; try congruence; eauto. }
    destruct Hseen as [ret Hseen]. rewrite Hseen in Hrelay.
    destruct (relay s) as [ | | ops r | | ].
    + destruct Hrelay.
    + destruct Hrelay as (_ & _ & _ & H); discriminate.
    + destruct Hrelay as (_ & _ & H); discriminate.
    + destruct Hrelay as [(_ & H) | (Herr & H)]; [discriminate|].
      repeat split; auto. exists id. split; [| now rewrite Hseen].
      unfold created. now rewrite Hcreate.
    + destruct Hrelay as (_ & H); discriminate.
Qed.

Lemma Exec_closes_only_after_relay_finished_witness :
  closed (first_outcome good_client file_opts) <> [] /\
  relay (first_outcome good_client file_opts) = Finished.
Proof.
  assert (Hclosed : closed (first_outcome good_client file_opts) <> []).
  { vm_compute. discriminate. }
  split; [exact Hclosed|].
  exact (proj1 (Exec_closes_only_after_relay_finished good_client file_opts _
                  (first_outcome_session good_client file_opts) Hclosed)).
Defined.

(** X9.  After a successful creation the calls of a session come in a
    fixed order and none is repeated: the creation request, then the
    relay's call of [hijack2], then the size monitor.  The monitor is never
    called before [hijack2] has been entered.  When [Exec] has returned, the
    log is complete: creation, [hijack2], and the monitor's call if the
    select received from [hijacked] and the terminal test passed. *)
Theorem Exec_calls_in_order c opts id s :
  created c opts id ->
  session c opts s ->
  (calls s = [create_call opts] \/
   calls s = [create_call opts; relay_call opts id] \/
   calls s = [create_call opts; relay_call opts id] ++ monitor_calls opts id) /\
  (monitor_started s -> relay_started (relay s) = true) /\
  (forall ret, result s = Some ret ->
     calls s = [create_call opts; relay_call opts id]
               ++ match ready_seen s with
                  | [] => []
                  | _ :: _ => monitor_calls opts id
                  end).
Proof.
  intros Hcreated Hs.
  destruct (created_inv c opts id Hcreated) as [cs Hcreate].
  pose proof (session_invariant c opts cs id s Hcreate Hs) as Hinv.
  pose proof Hinv as [_ Hcalls _ Hrelay _].
  assert (Horder : monitor_done s = true -> relay_started (relay s) = true).
  { unfold monitor_done.
    destruct (relay s); try reflexivity; [destruct Hrelay|].
    destruct Hrelay as (-> & _). discriminate. }
  split; [| split].
  - rewrite Hcalls.
    destruct (monitor_done s).
    + rewrite (Horder eq_refl). right. right. reflexivity.
    + rewrite app_nil_r. destruct (relay_started (relay s)); auto.
  - intros Hstarted.
    destruct (monitor_started_inv c opts s Hs Hstarted) as [_ Hdone].
    now apply Horder.
  - intros ret Hres.
    destruct (returned_after_relay c opts id s ret Hinv Hres)
      as (_ & _ & Hfin & _).
    rewrite Hcalls, Hfin. unfold monitor_done. unfold result in Hres.
    destruct (coord s); try discriminate.
    destruct (ready_seen s); reflexivity.
Qed.

Lemma Exec_calls_in_order_witness :
  calls (first_outcome good_client file_opts)
  = [create_call file_opts; relay_call file_opts "exec-1";
     CallMonitorTtySize "exec-1" true true 1%N].
Proof.
  assert (Hres : result (first_outcome good_client file_opts) = Some None).
  { vm_compute. reflexivity. }
  exact (proj2 (proj2 (Exec_calls_in_order good_client file_opts "exec-1" _
                         eq_refl
                         (first_outcome_session good_client file_opts)))
               None Hres).
Defined.

(** ** More on [ParseRepositoryTag] *)

(** X10.  The tag returned by [ParseRepositoryTag] never contains a colon.
    It is non-empty exactly when the input has a colon after which comes a
    non-empty text without ':' and '/'; the tag is then that text and the
    repository is what precedes the colon. *)
Theorem ParseRepositoryTag_tag_shape s repository tag :
  ParseRepositoryTag s = Some (repository, tag) ->
  occurs ":"%char tag = false /\
  (tag <> "" <->
   exists r t, s = (r ++ ":" ++ t)%string /\ t <> "" /\
               occurs ":"%char t = false /\ occurs "/"%char t = false) /\
  (forall r t, s = (r ++ ":" ++ t)%string -> t <> "" ->
               occurs ":"%char t = false -> occurs "/"%char t = false ->
               repository = r /\ tag = t).
Proof.
  intros HP.
  assert (Hjoin : forall r t, s = (r ++ ":" ++ t)%string ->
                              occurs ":"%char t = false ->
                              occurs "/"%char t = false ->
                              repository = r /\ tag = t).
  { intros r t -> Ht Hslash.
    rewrite (ParseRepositoryTag_at_last_colon r t Ht), Hslash in HP.
    injection HP as <- <-. now split. }
  destruct (last_occurrence ":"%char s) as [Hno | (r & t & Hs & Ht)].
  - rewrite (ParseRepositoryTag_no_colon s Hno) in HP.
    injection HP as <- <-.
    split; [reflexivity|]. split.
    + split; [intros H; now contradiction H|].
      intros (r & t & -> & Hne & Hcolon & Hslash).
      destruct (Hjoin r t eq_refl Hcolon Hslash) as [_ <-].
      now contradiction Hne.
    + intros r t Hst Hne Hcolon Hslash.
      destruct (Hjoin r t Hst Hcolon Hslash) as [_ <-].
      now contradiction Hne.
  - change (r ++ String ":"%char t)%string with (r ++ ":" ++ t)%string in Hs.
    pose proof HP as HP'. rewrite Hs in HP'.
    rewrite (ParseRepositoryTag_at_last_colon r t Ht) in HP'.
    destruct (occurs "/"%char t) eqn:Hslash; injection HP' as <- <-.
    + split; [reflexivity|]. split.
      * split; [intros H; now contradiction H|].
        intros (r' & t' & Hst & Hne & Hcolon & Hsl).
        destruct (Hjoin r' t' Hst Hcolon Hsl) as [_ <-].
        now contradiction Hne.
      * intros r' t' Hst Hne Hcolon Hsl.
        destruct (Hjoin r' t' Hst Hcolon Hsl) as [_ <-].
        now contradiction Hne.
    + split; [exact Ht|]. split.
      * split; [| intros (r' & t' & Hst & Hne & Hcolon & Hsl);
                  now destruct (Hjoin r' t' Hst Hcolon Hsl) as [_ <-]].
        intros Hne. exists r, t. now repeat split.
      * intros r' t' Hst _ Hcolon Hsl. now apply Hjoin.
Qed.

Lemma ParseRepositoryTag_tag_shape_witness :
  occurs ":"%char "v1.2" = false /\
  exists r t, "registry:5000/team/app:v1.2" = (r ++ ":" ++ t)%string /\
              t <> "" /\ occurs ":"%char t = false /\
              occurs "/"%char t = false.
Proof.
  assert (HP : ParseRepositoryTag "registry:5000/team/app:v1.2"
               = Some ("registry:5000/team/app", "v1.2")) by reflexivity.
  destruct (ParseRepositoryTag_tag_shape _ _ _ HP) as (Hcolon & Hiff & _).
  split; [exact Hcolon|].
  apply (proj1 Hiff). discriminate.
Defined.

(** ** [Version] and [Info] *)



(** ** The relay goroutine is not left behind *)

(** X12.  Whatever [hijack2] does: once it has returned, the goroutine of
    [promise.Go] can always deliver the result, because [errCh] has room
    for it; and when [Exec] has returned after a successful creation, that
    goroutine has finished and [errCh] is empty again. *)
Theorem Exec_leaves_no_relay_behind c opts id s :
  created c opts id ->
  session c opts s ->
  (forall ret, relay s = InHijack [] ret ->
               errCh s = None /\
               exists s', step c opts s s' /\ relay s' = Finished /\
                          errCh s' = Some ret) /\
  (forall ret, result s = Some ret -> relay s = Finished /\ errCh s = None).
Proof.
  intros Hcreated Hs.
  destruct (created_inv c opts id Hcreated) as [cs Hcreate].
  pose proof (session_invariant c opts cs id s Hcreate Hs) as Hinv.
  split.
  - intros ret Hrelay. destruct Hinv as [_ _ _ Hinv _].
    rewrite Hrelay in Hinv. destruct Hinv as (_ & Herr & _).
    split; [exact Herr|].
    eexists. split.
    + unfold step, successors. rewrite Hrelay.
      apply in_or_app. right. apply in_or_app. right.
      unfold relay_steps. rewrite Hrelay, Herr. left. reflexivity.
    + split; reflexivity.
  - intros ret Hres.
    destruct (returned_after_relay c opts id s ret Hinv Hres)
      as (_ & _ & Hfin & Herr & _).
    now split.
Qed.

Lemma Exec_leaves_no_relay_behind_witness :
  relay (last_outcome refused_client file_opts) = Finished /\
  errCh (last_outcome refused_client file_opts) = None.
Proof.
  assert (Hres : result (last_outcome refused_client file_opts)
                 = Some (Some (foreign "connection refused"))).
  { vm_compute. reflexivity. }
  exact (proj2 (Exec_leaves_no_relay_behind refused_client file_opts "exec-1" _
                  eq_refl (last_outcome_session refused_client file_opts))
               _ Hres).
Defined.
